(** * nuclide-adb-sdb-rpc/lib/Adb.js: the [ps] table parser and the adb queries

    A shallow embedding of [parsePsTableOutput] and of the methods of class
    [Adb] that wrap one adb invocation each, followed by the properties the
    specification states about them.

    JavaScript strings are modelled as [string], one [ascii] per code unit,
    read as the code points U+0000..U+00FF (Latin-1).  Within that range
    [toLowerCase], [trim] and the regular expression class [\s] are modelled
    exactly; adb output outside it is not covered. *)

From Stdlib Require Import Ascii String.
From Equations Require Import Equations.
From stdpp Require Import gmap strings list fin_maps.

Local Open Scope string_scope.
Local Open Scope nat_scope.

(** ** Strings *)

Module JsString.

(** [\s] and the characters removed by [trim]: TAB, LF, VT, FF, CR, SP and
    NBSP are the members of both classes below U+0100. *)
Definition isWhiteSpace (c : ascii) : bool :=
  bool_decide (nat_of_ascii c ∈ [9; 10; 11; 12; 13; 32; 160]).

Definition isNewline (c : ascii) : bool :=
  bool_decide (nat_of_ascii c = 10).

(** [A-Z] and the Latin-1 capitals U+00C0..U+00DE (without the
    multiplication sign U+00D7) have their small letter 32 places up. *)
Definition lowerChar (c : ascii) : ascii :=
  let n := nat_of_ascii c in
  if bool_decide (65 ≤ n ≤ 90) || bool_decide (192 ≤ n ≤ 222 ∧ n ≠ 215)
  then ascii_of_nat (n + 32)
  else c.

(** [s.toLowerCase()] *)
Fixpoint toLowerCase (s : string) : string :=
  match s with
  | EmptyString => EmptyString
  | String c r => String (lowerChar c) (toLowerCase r)
  end.

Definition startsWith (p : ascii → bool) (s : string) : bool :=
  match s with
  | EmptyString => false
  | String c _ => p c
  end.

(** Splitting at every single separator character: the piece before the
    first separator, and the pieces after it. *)
Fixpoint piecesAtEach (sep : ascii → bool) (s : string) : string * list string :=
  match s with
  | EmptyString => (EmptyString, [])
  | String c r =>
      let '(p, ps) := piecesAtEach sep r in
      if sep c then (EmptyString, p :: ps) else (String c p, ps)
  end.

(** Splitting at every maximal run of separator characters. *)
Fixpoint piecesAtRuns (sep : ascii → bool) (s : string) : string * list string :=
  match s with
  | EmptyString => (EmptyString, [])
  | String c r =>
      let '(p, ps) := piecesAtRuns sep r in
      if sep c
      then (EmptyString, if startsWith sep r then ps else p :: ps)
      else (String c p, ps)
  end.

(** [s.split(/\n/)] *)
Definition splitNewline (s : string) : list string :=
  let '(p, ps) := piecesAtEach isNewline s in p :: ps.

(** [s.split(/\s+/)] *)
Definition splitWhiteSpace (s : string) : list string :=
  let '(p, ps) := piecesAtRuns isWhiteSpace s in p :: ps.

Fixpoint trimStart (s : string) : string :=
  match s with
  | EmptyString => EmptyString
  | String c r => if isWhiteSpace c then trimStart r else s
  end.

Fixpoint trimEnd (s : string) : string :=
  match s with
  | EmptyString => EmptyString
  | String c r =>
      match trimEnd r with
      | EmptyString => if isWhiteSpace c then EmptyString else String c EmptyString
      | r' => String c r'
      end
  end.

(** [s.trim()] *)
Definition trim (s : string) : string := trimEnd (trimStart s).

(** [s.substring(n)]: the code units from index [n] on, nothing when [s]
    is shorter. *)
Fixpoint substring (n : nat) (s : string) : string :=
  match n, s with
  | 0, _ => s
  | S n', String _ r => substring n' r
  | S _, EmptyString => EmptyString
  end.

(** [a.includes(x)] on an array of strings *)
Definition includes (a : list string) (x : string) : bool :=
  bool_decide (x ∈ a).

(** [lines.join("\n")], the inverse of [splitNewline] *)
Fixpoint joinNewline (ls : list string) : string :=
  match ls with
  | [] => EmptyString
  | [l] => l
  | l :: ls' => l +:+ String "010"%char (joinNewline ls')
  end.

End JsString.

Import JsString.

(** ** Values, objects and completions *)

(** The JavaScript values this module stores: a string, [undefined] (what
    an array read past the end gives) and [null]. *)
Inductive value : Type :=
| VUndefined
| VNull
| VString (s : string).

#[global] Instance value_eq_dec : EqDecision value.
Proof. solve_decision. Defined.

Inductive error : Type :=
| TypeError
| ProcessError (msg : string).

(** How a call ends: it returns (a promise is fulfilled) or it throws (a
    promise is rejected). *)
Inductive completion (A : Type) : Type :=
| Normal (a : A)
| Throw (e : error).
Arguments Normal {A} a.
Arguments Throw {A} e.

#[global] Instance completion_ret : MRet completion := λ A a, Normal a.

#[global] Instance completion_bind : MBind completion := λ A B k c,
  match c with
  | Normal a => k a
  | Throw e => Throw e
  end.

#[global] Instance completion_fmap : FMap completion := λ A B f c,
  match c with
  | Normal a => Normal (f a)
  | Throw e => Throw e
  end.

(** [promise.catch(handler)] *)
Definition catch {A : Type} (c : completion A) (handler : error → A) : completion A :=
  match c with
  | Normal a => Normal a
  | Throw e => Normal (handler e)
  end.

(** [a[i]] on an array of strings *)
Definition arrayGet (a : list string) (i : nat) : value :=
  match a !! i with
  | Some s => VString s
  | None => VUndefined
  end.

(** The receiver of a string method: calling [v.split(..)] or
    [v.toLowerCase()] on [undefined] or [null] throws a [TypeError]. *)
Definition receiver (v : value) : completion string :=
  match v with
  | VString s => Normal s
  | _ => Throw TypeError
  end.

(** A plain object [{}] used as a map: its own properties.  [colMapping]
    has array indices as keys, a row object has column names. *)
Abbreviation rowObject := (gmap string value).

(** [obj[name] = v] on an object created by [{}].  The name [__proto__] is
    the accessor inherited from [Object.prototype]: assigning a string or
    [undefined] to it is ignored and creates no own property.  (No other
    value is assigned to a row object.) *)
Definition setProperty (name : string) (v : value) (obj : rowObject) : rowObject :=
  if decide (name = "__proto__") then obj else <[name := v]> obj.

(** ** parsePsTableOutput *)

(** Lines 197-202: the loop over the header columns. *)
Equations? headerLoop (cols desiredFields : list string) (i : nat)
    (colMapping : gmap nat string) : completion (gmap nat string)
    by wf (length cols - i) lt :=
  headerLoop cols desiredFields i colMapping with decide (i < length cols) := {
    | left _ =>
        columnName ← (s ← receiver (arrayGet cols i); Normal (toLowerCase s));
        headerLoop cols desiredFields (i + 1)
          (if includes desiredFields columnName
           then <[i := columnName]> colMapping
           else colMapping);
    | right _ => Normal colMapping }.
Proof. lia. Qed.

(** Line 213: [rowData[i] === 'S' && i < rowData.length - 1].  The
    subtraction is the truncated one of [nat]; both agree because [i] is
    not negative. *)
Definition skipsAt (rowData : list string) (i : nat) : bool :=
  bool_decide (arrayGet rowData i = VString "S") && bool_decide (i < length rowData - 1).

(** Lines 213-215: the value of [i] after [if (...) { i++; }]. *)
Definition advance (rowData : list string) (i : nat) : nat :=
  if skipsAt rowData i then i + 1 else i.

(** Lines 217-219: the assignment to the row object, with [i] already
    advanced. *)
Definition store (colMapping : gmap nat string) (rowData : list string)
    (effectiveColumn i : nat) (rowObj : rowObject) : rowObject :=
  match colMapping !! effectiveColumn with
  | Some name => setProperty name (arrayGet rowData i) rowObj
  | None => rowObj
  end.

(** Lines 209-220: the loop over the tokens of one row; the body may
    advance [i] itself before the loop's own [i++]. *)
Equations? rowLoop (rowData : list string) (colMapping : gmap nat string) (i : nat)
    (rowObj : rowObject) : rowObject by wf (length rowData - i) lt :=
  rowLoop rowData colMapping i rowObj with decide (i < length rowData) := {
    | left _ =>
        let effectiveColumn := i in
        let i' := advance rowData i in
        rowLoop rowData colMapping (i' + 1)
          (store colMapping rowData effectiveColumn i' rowObj);
    | right _ => rowObj }.
Proof. subst i'. unfold advance. destruct (skipsAt rowData i); lia. Qed.

(** The positions at which the body of the loop runs: [Visits rowData i j]
    when the loop entered at index [i] runs its body with
    [effectiveColumn = j]. *)
Inductive Visits (rowData : list string) : nat → nat → Prop :=
| visits_here i : i < length rowData → Visits rowData i i
| visits_later i j :
    i < length rowData → Visits rowData (advance rowData i + 1) j → Visits rowData i j.

(** Lines 207-208 and 209-220: the callback of [forEach] up to the [push]. *)
Definition parseRow (colMapping : gmap nat string) (row : string) : rowObject :=
  let rowData := splitWhiteSpace row in
  rowLoop rowData colMapping 0 ∅.

(** Lines 192-202: the column mapping read off the header line. *)
Definition headerMapping (output : string) (desiredFields : list string)
    : completion (gmap nat string) :=
  let lines := splitNewline output in
  header ← receiver (arrayGet lines 0);
  let cols := splitWhiteSpace header in
  headerLoop cols desiredFields 0 ∅.

(** Lines 205-206: [lines.slice(1).filter(row => row.trim() !== '')] *)
Definition dataRows (output : string) : list string :=
  let lines := splitNewline output in
  let data := drop 1 lines in
  filter (λ row, trim row ≠ "") data.

(** [rows.forEach(row => { ...; formattedData.push(rowObj) })]: the array
    [formattedData] is threaded through the calls of the callback. *)
Definition forEachPush (colMapping : gmap nat string) (rows : list string)
    (formattedData : list rowObject) : list rowObject :=
  foldl (λ formattedData row, (formattedData ++ [parseRow colMapping row])%list)
        formattedData rows.

Definition parsePsTableOutput (output : string) (desiredFields : list string)
    : completion (list rowObject) :=
  colMapping ← headerMapping output desiredFields;
  let formattedData := [] in
  Normal (forEachPush colMapping (dataRows output) formattedData).

(** ** Observables and promises *)

(** A finished run of an rxjs [Observable]: the values it emitted, in
    order, and whether it then completed or failed. *)
Inductive ending : Type :=
| Completes
| Fails (e : error).

Record observable (A : Type) : Type := Observable
  { emitted : list A; end_ : ending }.
Arguments Observable {A} emitted end_.
Arguments emitted {A} o.
Arguments end_ {A} o.

(** [Observable.of(a)] *)
Definition obsOf {A : Type} (a : A) : observable A := Observable [a] Completes.

(** The values of [o.map(f)]: a callback that throws ends the stream with
    that error. *)
Fixpoint mapEmitted {A B : Type} (f : A → completion B) (l : list A) (e : ending)
    : observable B :=
  match l with
  | [] => Observable [] e
  | a :: l' =>
      match f a with
      | Normal b => let o := mapEmitted f l' e in Observable (b :: emitted o) (end_ o)
      | Throw err => Observable [] (Fails err)
      end
  end.

(** [o.map(f)] *)
Definition obsMap {A B : Type} (f : A → completion B) (o : observable A) : observable B :=
  mapEmitted f (emitted o) (end_ o).

(** [o.catch(handler)]: on failure, continue with the handler's stream. *)
Definition obsCatch {A : Type} (handler : error → observable A) (o : observable A)
    : observable A :=
  match end_ o with
  | Completes => o
  | Fails e => let o' := handler e in Observable (emitted o ++ emitted o')%list (end_ o')
  end.

(** [o.take(n)]: complete after the [n]-th value. *)
Definition obsTake {A : Type} (n : nat) (o : observable A) : observable A :=
  if decide (n ≤ length (emitted o))
  then Observable (take n (emitted o)) Completes
  else o.

(** [o.toPromise()]: fulfilled with the last value, or with [undefined]
    ([None]) when the stream completed without one; rejected on failure. *)
Definition toPromise {A : Type} (o : observable A) : completion (option A) :=
  match end_ o with
  | Completes => Normal (last (emitted o))
  | Fails e => Throw e
  end.

(** A string that may be [undefined], as a value. *)
Definition ofOptional (o : option string) : value :=
  match o with
  | Some s => VString s
  | None => VUndefined
  end.

(** ** Class Adb *)

(** [LegacyProcessMessage]: the events of [observeProcessRaw]. *)
Inductive processMessage : Type :=
| Stdout (data : string)
| Stderr (data : string)
| Exit (exitCode : nat)
| ErrorMessage (e : error).

Section Adb.

(** The collaborators of the class, which live in [DebugBridge] and
    [commons-node/process]: the outcome of running one adb command for a
    device, the base table of device information, and the event stream
    of a spawned process.  They are left arbitrary. *)
Variable runShortAdbCommand : string → list string → observable string.
Variable getCommonDeviceInfo : string → completion (gmap string value).
Variable adbPath : string.
Variable observeProcessRaw : string → list string → observable processMessage.

Definition getAndroidProp (device key : string) : observable string :=
  obsMap (λ s, Normal (trim s))
         (runShortAdbCommand device ["shell"; "getprop"; key]).

Definition getInstalledPackages (device : string) : completion (list string) :=
  let prefix := "package:" in
  stdout ← toPromise (runShortAdbCommand device ["shell"; "pm"; "list"; "packages"]);
  s ← receiver (ofOptional stdout);
  Normal (map (λ s, substring (String.length prefix) s) (splitWhiteSpace (trim s))).

Definition isPackageInstalled (device pkg : string) : completion bool :=
  packages ← getInstalledPackages device;
  Normal (includes packages pkg).

Definition getDeviceModel (device : string) : completion (option string) :=
  toPromise
    (obsMap (λ s, Normal (if decide (s = "sdk") then "emulator" else s))
            (getAndroidProp device "ro.product.model")).

Definition getBrand (device : string) : completion (option string) :=
  toPromise (getAndroidProp device "ro.product.brand").

Definition getManufacturer (device : string) : completion (option string) :=
  toPromise (getAndroidProp device "ro.product.manufacturer").

Definition getOSVersion (device : string) : completion (option string) :=
  toPromise (getAndroidProp device "ro.build.version.release").

(** [infoTable] is a [Map]; [set] is the insertion of [gmap]. *)
Definition getDeviceInfo (device : string) : completion (gmap string value) :=
  infoTable ← getCommonDeviceInfo device;
  let unknownCB := (λ _ : error, VNull) in
  v ← catch (ofOptional <$> getOSVersion device) unknownCB;
  let infoTable := <["android_version" := v]> infoTable in
  v ← catch (ofOptional <$> getManufacturer device) unknownCB;
  let infoTable := <["manufacturer" := v]> infoTable in
  v ← catch (ofOptional <$> getBrand device) unknownCB;
  let infoTable := <["brand" := v]> infoTable in
  Normal infoTable.

(** [row.pid] *)
Definition pidOf (row : rowObject) : value :=
  match row !! "pid" with
  | Some v => v
  | None => VUndefined
  end.

(** [jdwpPids.has(v)] for a [Set] that holds strings only *)
Definition setHas (jdwpPids : gset string) (v : value) : bool :=
  match v with
  | VString s => bool_decide (s ∈ jdwpPids)
  | _ => false
  end.

(** Lines 161-171: the callback of [map].  [allProcesses] is the awaited
    result of the [ps] promise, [None] when that is [undefined]: calling
    [filter] on it then throws. *)
Definition jdwpFilter (allProcesses : option (list rowObject)) (output : processMessage)
    : completion (list rowObject) :=
  let jdwpPids : gset string :=
    match output with
    | Stdout block =>
        foldl (λ jdwpPids pid, {[trim pid]} ∪ jdwpPids) ∅ (splitWhiteSpace block)
    | _ => ∅
    end in
  match allProcesses with
  | Some rows => Normal (filter (λ row, setHas jdwpPids (pidOf row) = true) rows)
  | None => Throw TypeError
  end.

(** Line 154: the arguments of the [jdwp] scan. *)
Definition jdwpArgs (device : string) : list string :=
  ((if decide (device ≠ "") then ["-s"; device] else []) ++ ["jdwp"])%list.

(** The stream of lines 155-160: the raw events, with a failure replaced
    by one event of kind [error], cut after the first event.  (The
    options of [observeProcessRaw] concern the process, not the events
    handled here.) *)
Definition jdwpEvents (device : string) : observable processMessage :=
  let args := jdwpArgs device in
  obsTake 1 (obsCatch (λ error, obsOf (ErrorMessage error))
                      (observeProcessRaw adbPath args)).

(** Lines 147-152: the promise awaited for [allProcesses]. *)
Definition listProcesses (device : string) : completion (option (list rowObject)) :=
  toPromise
    (obsMap (λ stdout,
               let psOutput := trim stdout in
               parsePsTableOutput psOutput ["user"; "pid"; "name"])
            (runShortAdbCommand device ["shell"; "ps"])).

Definition getJavaProcesses (device : string) : completion (option (list rowObject)) :=
  allProcesses ← listProcesses device;
  toPromise (obsMap (jdwpFilter allProcesses) (jdwpEvents device)).

End Adb.

(** ** Sample collaborators *)

(** A device whose every command prints only blanks. *)
Definition blankDevice (device : string) (args : list string) : observable string :=
  Observable ["  "] Completes.

(** A device that answers every command with a small [ps] table. *)
Definition initDevice (device : string) (args : list string) : observable string :=
  Observable [joinNewline ["USER PID NAME"; "root 1 S /init"; "shell 77 S sh"]] Completes.

(** A device on which every command fails. *)
Definition deadDevice (device : string) (args : list string) : observable string :=
  Observable [] (Fails (ProcessError "device offline")).

(** A base table with one entry. *)
Definition nameOnly (device : string) : completion (gmap string value) :=
  Normal {[ "name" := VString device ]}.

(** An adb binary that cannot be spawned. *)
Definition noAdb (path : string) (args : list string) : observable processMessage :=
  Observable [] (Fails (ProcessError "spawn ENOENT")).

(** A device whose package listing holds one token with the prefix and
    one without. *)
Definition mixedListing (device : string) (args : list string) : observable string :=
  Observable ["package:com.example.app com.example.app pkg"] Completes.

(** A jdwp scan that prints two pids and fails afterwards. *)
Definition lateFailure (path : string) (args : list string) : observable processMessage :=
  Observable [Stdout " 1 77"] (Fails (ProcessError "adb died")).

(** ** Notions used in the statements *)

(** Two strings that differ in letter case only. *)
Definition sameIgnoringCase (a b : string) : Prop :=
  toLowerCase a = toLowerCase b.

(** Every character of [s] satisfies [p]. *)
Fixpoint allChars (p : ascii → bool) (s : string) : bool :=
  match s with
  | EmptyString => true
  | String c r => p c && allChars p r
  end.

(** What the header loop leaves at index [j] of [colMapping]: the
    lowercased [j]-th column when that is a desired field. *)
Definition columnAt (cols desiredFields : list string) (j : nat) : option string :=
  match cols !! j with
  | Some tok =>
      if includes desiredFields (toLowerCase tok) then Some (toLowerCase tok) else None
  | None => None
  end.

(** A column mapping moved one column to the left: column [j] of the
    result is column [j + 1] of [colMapping]; column 0 is dropped. *)
Definition shiftLeft (colMapping : gmap nat string) : gmap nat string :=
  map_fold (λ j name shifted,
              match j with
              | 0 => shifted
              | S j' => <[j' := name]> shifted
              end) ∅ colMapping.

(** * Properties *)

#[local] Set Warnings "-clear-no-such-hyp".

(** ** The two loops *)

Lemma headerLoop_step cols desiredFields i colMapping :
  headerLoop cols desiredFields i colMapping =
  if decide (i < length cols)
  then columnName ← (s ← receiver (arrayGet cols i); Normal (toLowerCase s));
       headerLoop cols desiredFields (i + 1)
         (if includes desiredFields columnName
          then <[i := columnName]> colMapping
          else colMapping)
  else Normal colMapping.
Proof.
  rewrite headerLoop_equation_1. destruct (decide (i < length cols)); reflexivity.
Qed.

Lemma rowLoop_step rowData colMapping i rowObj :
  rowLoop rowData colMapping i rowObj =
  if decide (i < length rowData)
  then rowLoop rowData colMapping (advance rowData i + 1)
         (store colMapping rowData i (advance rowData i) rowObj)
  else rowObj.
Proof.
  rewrite rowLoop_equation_1. destruct (decide (i < length rowData)); reflexivity.
Qed.

(** ** Strings *)

Lemma splitNewline_cons s : ∃ header rest, splitNewline s = header :: rest.
Proof. unfold splitNewline. destruct (piecesAtEach isNewline s); eauto. Qed.

Lemma splitWhiteSpace_cons s : ∃ tok rest, splitWhiteSpace s = tok :: rest.
Proof. unfold splitWhiteSpace. destruct (piecesAtRuns isWhiteSpace s); eauto. Qed.

Lemma splitWhiteSpace_length s : 0 < length (splitWhiteSpace s).
Proof. destruct (splitWhiteSpace_cons s) as (tok & rest & ->). simpl. lia. Qed.

(** The lines of a text, joined again, are the text; and no line holds a
    newline: [splitNewline] is the decomposition into lines. *)
Lemma joinNewline_splitNewline s : joinNewline (splitNewline s) = s.
Proof.
  unfold splitNewline. induction s as [|c r IH]; [reflexivity|].
  simpl. destruct (piecesAtEach isNewline r) as [p ps].
  destruct (isNewline c) eqn:Hc.
  - apply bool_decide_eq_true in Hc.
    assert (c = "010"%char) as ->.
    { rewrite <- (ascii_nat_embedding c), Hc. reflexivity. }
    change (joinNewline (EmptyString :: p :: ps))
      with (String "010"%char (joinNewline (p :: ps))).
    by rewrite IH.
  - destruct ps as [|q ps]; cbn in IH |- *; by rewrite <- IH.
Qed.

Lemma splitNewline_lines s :
  Forall (λ l, allChars (λ c, negb (isNewline c)) l = true) (splitNewline s).
Proof.
  unfold splitNewline. induction s as [|c r IH]; [by repeat constructor|].
  simpl. destruct (piecesAtEach isNewline r) as [p ps].
  destruct (isNewline c) eqn:Hc.
  - by constructor.
  - inversion IH; subst. constructor; [|done]. simpl. by rewrite Hc.
Qed.

Lemma trimStart_id s : startsWith isWhiteSpace s = false → trimStart s = s.
Proof. destruct s as [|c r]; simpl; [done|]. by intros ->. Qed.

(** A leading run of whitespace splits off one empty token. *)
Lemma splitWhiteSpace_indent s :
  startsWith isWhiteSpace s = true →
  splitWhiteSpace s = EmptyString :: splitWhiteSpace (trimStart s).
Proof.
  unfold splitWhiteSpace. induction s as [|c r IH]; [done|].
  simpl. intros Hc. rewrite Hc.
  destruct (startsWith isWhiteSpace r) eqn:Hr.
  - specialize (IH eq_refl).
    destruct (piecesAtRuns isWhiteSpace r) as [p ps].
    destruct (piecesAtRuns isWhiteSpace (trimStart r)) as [q qs].
    by inversion IH.
  - rewrite (trimStart_id r Hr).
    by destruct (piecesAtRuns isWhiteSpace r) as [p ps].
Qed.

Lemma lowerChar_idemp c : lowerChar (lowerChar c) = lowerChar c.
Proof. destruct c as [[] [] [] [] [] [] [] []]; reflexivity. Qed.

Lemma toLowerCase_idemp s : toLowerCase (toLowerCase s) = toLowerCase s.
Proof. induction s as [|c r IH]; simpl; [done|]. by rewrite lowerChar_idemp, IH. Qed.

Lemma includes_true a x : includes a x = true ↔ x ∈ a.
Proof. unfold includes. apply bool_decide_eq_true. Qed.

(** [substring n] cuts off exactly the first [n] characters, or everything
    when there are fewer. *)
Lemma substring_drops n s :
  (∃ pre, String.length pre = n ∧ s = pre +:+ substring n s) ∨
  (String.length s < n ∧ substring n s = EmptyString).
Proof.
  revert s. induction n as [|n IH]; intros s.
  - left. by exists EmptyString.
  - destruct s as [|c r]; simpl.
    + right. split; [lia|done].
    + destruct (IH r) as [(pre & Hlen & Heq)|[Hlt Hnil]].
      * left. exists (String c pre). split; [simpl; lia|].
        change (String c pre +:+ substring n r)
          with (String c (pre +:+ substring n r)).
        by rewrite <- Heq.
      * right. split; [lia|done].
Qed.

(** ** The header loop *)

Lemma headerLoop_spec cols desiredFields n : ∀ i (colMapping : gmap nat string),
  length cols - i ≤ n →
  (∀ j, i ≤ j → colMapping !! j = None) →
  ∃ cm : gmap nat string,
    headerLoop cols desiredFields i colMapping = Normal cm ∧
    ∀ j, cm !! j = if decide (i ≤ j) then columnAt cols desiredFields j
                   else colMapping !! j.
Proof.
  induction n as [|n IH]; intros i cm Hn Hfresh;
    rewrite headerLoop_step; case_decide as Hi; try lia.
  - exists cm. split; [done|]. intros j. case_decide; [|done].
    rewrite Hfresh by done. unfold columnAt. by rewrite lookup_ge_None_2 by lia.
  - destruct (lookup_lt_is_Some_2 cols i Hi) as [tok Htok].
    unfold arrayGet. rewrite Htok. cbn.
    set (cm1 := if includes desiredFields (toLowerCase tok)
                then <[i := toLowerCase tok]> cm else cm).
    destruct (IH (i + 1) cm1) as (cm' & Heq & Hlk); [lia| |].
    { intros j Hj. subst cm1. destruct (includes _ _).
      - rewrite lookup_insert_ne by lia. apply Hfresh. lia.
      - apply Hfresh. lia. }
    exists cm'. split; [done|]. intros j. rewrite Hlk.
    destruct (decide (i + 1 ≤ j)), (decide (i ≤ j)); try lia; try done.
    + assert (j = i) as -> by lia. subst cm1. unfold columnAt. rewrite Htok.
      destruct (includes _ _); [by rewrite lookup_insert_eq|]. apply Hfresh. lia.
    + subst cm1. destruct (includes _ _); [|done]. by rewrite lookup_insert_ne by lia.
  - exists cm. split; [done|]. intros j. case_decide; [|done].
    rewrite Hfresh by done. unfold columnAt. by rewrite lookup_ge_None_2 by lia.
Qed.

(** The header is always resolved, and binds column [j] exactly to the
    lowercased [j]-th header token when that is a desired field. *)
Lemma headerMapping_spec output desiredFields :
  ∃ header rest (cm : gmap nat string),
    splitNewline output = header :: rest ∧
    headerMapping output desiredFields = Normal cm ∧
    ∀ j, cm !! j = columnAt (splitWhiteSpace header) desiredFields j.
Proof.
  destruct (splitNewline_cons output) as (header & rest & Hlines).
  destruct (headerLoop_spec (splitWhiteSpace header) desiredFields
              (length (splitWhiteSpace header)) 0 ∅) as (cm & Hcm & Hlk);
    [lia|done|].
  exists header, rest, cm. split; [done|]. split.
  - unfold headerMapping, arrayGet. rewrite Hlines. exact Hcm.
  - intros j. rewrite Hlk. case_decide; [done|lia].
Qed.

Lemma columnAt_Some cols desiredFields j d :
  columnAt cols desiredFields j = Some d ↔
  ∃ tok, cols !! j = Some tok ∧ toLowerCase tok = d ∧ d ∈ desiredFields.
Proof.
  unfold columnAt. destruct (cols !! j) as [tok|]; [|naive_solver].
  destruct (includes desiredFields (toLowerCase tok)) eqn:Hin.
  - apply includes_true in Hin. naive_solver.
  - split; [done|]. intros (tok' & [= <-] & <- & Hd).
    apply includes_true in Hd. congruence.
Qed.

(** ** The row loop *)

Lemma store_lookup colMapping rowData e i (rowObj : rowObject) k :
  store colMapping rowData e i rowObj !! k =
  if decide (colMapping !! e = Some k ∧ k ≠ "__proto__")
  then Some (arrayGet rowData i)
  else rowObj !! k.
Proof.
  unfold store, setProperty. destruct (colMapping !! e) as [name|] eqn:He.
  - destruct (decide (name = "__proto__")) as [->|Hname].
    + case_decide; [naive_solver|done].
    + destruct (decide (name = k)) as [->|Hk].
      * rewrite lookup_insert_eq. case_decide; [done|naive_solver].
      * rewrite lookup_insert_ne by done. case_decide; [naive_solver|done].
  - case_decide; [naive_solver|done].
Qed.

Lemma advance_lt rowData i : i < length rowData → advance rowData i < length rowData.
Proof.
  intros Hi. unfold advance, skipsAt.
  destruct (bool_decide (arrayGet rowData i = VString "S")); simpl; [|done].
  case_bool_decide; lia.
Qed.

Lemma advance_ge rowData i : i ≤ advance rowData i.
Proof. unfold advance. destruct (skipsAt rowData i); lia. Qed.

Lemma Visits_bounds rowData i j : Visits rowData i j → i ≤ j < length rowData.
Proof.
  induction 1 as [i Hi|i j Hi _ IH]; [lia|].
  pose proof (advance_ge rowData i). lia.
Qed.

(** A key that no remaining column is bound to keeps its value. *)
Lemma rowLoop_frame rowData colMapping k n : ∀ i (rowObj : rowObject),
  length rowData - i ≤ n →
  (k = "__proto__" ∨ ∀ j, i ≤ j → j < length rowData → colMapping !! j ≠ Some k) →
  rowLoop rowData colMapping i rowObj !! k = rowObj !! k.
Proof.
  induction n as [|n IH]; intros i obj Hn Hk;
    rewrite rowLoop_step; case_decide as Hi; try lia; try done.
  pose proof (advance_ge rowData i).
  rewrite IH; [|lia|].
  - rewrite store_lookup. case_decide as Hc; [|done].
    destruct Hk as [->|Hk]; [naive_solver|]. destruct (Hk i); naive_solver.
  - destruct Hk as [->|Hk]; [by left|]. right. intros j ??. apply Hk; lia.
Qed.

(** The last visited column bound to a key decides its value. *)
Lemma rowLoop_visits rowData colMapping k i j :
  Visits rowData i j →
  colMapping !! j = Some k → k ≠ "__proto__" →
  (∀ j', j < j' → j' < length rowData → colMapping !! j' ≠ Some k) →
  ∀ rowObj : rowObject,
    rowLoop rowData colMapping i rowObj !! k = Some (arrayGet rowData (advance rowData j)).
Proof.
  intros Hv Hj Hk Hlater.
  induction Hv as [i Hi|i j Hi Hv IH]; intros obj;
    rewrite rowLoop_step; (case_decide; [|lia]).
  - pose proof (advance_ge rowData i).
    rewrite (rowLoop_frame _ _ _ (length rowData)); [|lia|].
    + rewrite store_lookup. case_decide; [done|naive_solver].
    + right. intros j' ??. apply Hlater; lia.
  - by apply IH.
Qed.

(** Every property of the result was there before or was stored at a
    visited column. *)
Lemma rowLoop_origin rowData colMapping n : ∀ i (rowObj : rowObject) k v,
  length rowData - i ≤ n →
  rowLoop rowData colMapping i rowObj !! k = Some v →
  rowObj !! k = Some v ∨
  ∃ j, Visits rowData i j ∧ colMapping !! j = Some k ∧ k ≠ "__proto__" ∧
       v = arrayGet rowData (advance rowData j).
Proof.
  induction n as [|n IH]; intros i obj k v Hn;
    rewrite rowLoop_step; case_decide as Hi; try lia; try (by left).
  pose proof (advance_ge rowData i). intros Hres.
  assert (length rowData - (advance rowData i + 1) ≤ n) as Hn' by lia.
  destruct (IH _ _ _ _ Hn' Hres) as [Hst|(j & Hv & Hj & Hk & ->)]; clear Hres.
  - rewrite store_lookup in Hst. case_decide as Hc; [|by left].
    right. exists i. destruct Hc. split; [by constructor|]. naive_solver.
  - right. exists j. split; [by apply visits_later|done].
Qed.

(** Left of the first ["S"] the loop visits every position. *)
Lemma Visits_before_S rowData j n : ∀ i,
  j - i ≤ n → i ≤ j → j < length rowData →
  (∀ j', i ≤ j' → j' < j → rowData !! j' ≠ Some "S") →
  Visits rowData i j.
Proof.
  induction n as [|n IH]; intros i Hn Hij Hj Hfree.
  - assert (i = j) as -> by lia. by constructor.
  - destruct (decide (i = j)) as [->|Hne]; [by constructor|].
    apply visits_later; [lia|].
    assert (advance rowData i = i) as ->.
    { unfold advance, skipsAt, arrayGet.
      destruct (rowData !! i) as [t|] eqn:Ht; [|done].
      case_bool_decide as Heq; [|done].
      inversion Heq; subst. destruct (Hfree i); [lia|lia|done]. }
    apply IH; [lia|lia|done|]. intros j' ??. apply Hfree; lia.
Qed.

(** ** The parser as a whole *)

Lemma forEachPush_map colMapping rows : ∀ formattedData,
  forEachPush colMapping rows formattedData =
  (formattedData ++ map (parseRow colMapping) rows)%list.
Proof.
  unfold forEachPush. induction rows as [|row rows IH]; intros acc; simpl.
  - by rewrite app_nil_r.
  - rewrite IH. by rewrite <- app_assoc.
Qed.

Lemma parse_records output desiredFields (cm : gmap nat string) :
  headerMapping output desiredFields = Normal cm →
  parsePsTableOutput output desiredFields =
  Normal (map (parseRow cm) (dataRows output)).
Proof.
  intros Hcm. unfold parsePsTableOutput. rewrite Hcm. cbn.
  by rewrite forEachPush_map.
Qed.

Lemma parse_total output desiredFields :
  ∃ header rest (cm : gmap nat string),
    splitNewline output = header :: rest ∧
    headerMapping output desiredFields = Normal cm ∧
    (∀ j, cm !! j = columnAt (splitWhiteSpace header) desiredFields j) ∧
    parsePsTableOutput output desiredFields =
      Normal (map (parseRow cm) (dataRows output)).
Proof.
  destruct (headerMapping_spec output desiredFields)
    as (header & rest & cm & Hlines & Hcm & Hlk).
  exists header, rest, cm. eauto using parse_records.
Qed.

Lemma record_of_row (cm : gmap nat string) rows n row (rec : rowObject) :
  rows !! n = Some row → map (parseRow cm) rows !! n = Some rec →
  rec = parseRow cm row.
Proof.
  intros Hrow Hrec. change (map (parseRow cm) rows) with (parseRow cm <$> rows) in Hrec.
  rewrite list_lookup_fmap, Hrow in Hrec. by inversion Hrec.
Qed.

(** The keys of a row object are bound to columns the row has. *)
Lemma parseRow_keys (cm : gmap nat string) row k :
  is_Some (parseRow cm row !! k) →
  ∃ j, j < length (splitWhiteSpace row) ∧ cm !! j = Some k.
Proof.
  intros [v Hv]. unfold parseRow in Hv.
  assert (length (splitWhiteSpace row) - 0 ≤ length (splitWhiteSpace row)) as Hn by lia.
  destruct (rowLoop_origin _ _ _ _ _ _ _ Hn Hv) as [Hv0|(j & Hvis & Hj & _)];
    [by rewrite lookup_empty in Hv0|].
  exists j. split; [|done]. apply Visits_bounds in Hvis. lia.
Qed.

Lemma parseRow_unbound (cm : gmap nat string) row :
  (∀ j, cm !! j = None) → parseRow cm row = ∅.
Proof.
  intros Hcm. apply map_eq. intros k. rewrite lookup_empty.
  destruct (parseRow cm row !! k) eqn:Hk; [|done].
  destruct (parseRow_keys cm row k) as (j & _ & Hj); [by eexists|].
  by rewrite Hcm in Hj.
Qed.

(** Among the columns of a row bound to a key there is a last one. *)
Lemma last_bound_column (cm : gmap nat string) k len : ∀ j,
  j < len → cm !! j = Some k →
  ∃ j1, j1 < len ∧ cm !! j1 = Some k ∧
        ∀ j', j1 < j' → j' < len → cm !! j' ≠ Some k.
Proof.
  induction len as [|m IH]; intros j Hj Hk; [lia|].
  destruct (decide (cm !! m = Some k)) as [Hm|Hm].
  - exists m. repeat split; [lia|done|]. intros; lia.
  - assert (j ≠ m) by congruence.
    destruct (IH j) as (j1 & ? & ? & Hlater); [lia|done|].
    exists j1. repeat split; [lia|done|]. intros j' ??.
    destruct (decide (j' = m)) as [->|]; [done|]. apply Hlater; lia.
Qed.

Lemma skipsAt_true rowData j :
  skipsAt rowData j = true ↔ rowData !! j = Some "S" ∧ j < length rowData - 1.
Proof.
  unfold skipsAt, arrayGet. rewrite andb_true_iff, !bool_decide_eq_true.
  destruct (rowData !! j) as [t|]; naive_solver.
Qed.

Lemma advance_skip rowData j :
  rowData !! j = Some "S" → j < length rowData - 1 → advance rowData j = j + 1.
Proof.
  intros Hs Hj. unfold advance.
  by rewrite (proj2 (skipsAt_true rowData j) (conj Hs Hj)).
Qed.

Lemma advance_stay rowData j :
  ¬ (rowData !! j = Some "S" ∧ j < length rowData - 1) → advance rowData j = j.
Proof.
  intros Hno. unfold advance. destruct (skipsAt rowData j) eqn:Hs; [|done].
  by apply skipsAt_true in Hs.
Qed.

(** The loop never comes back: two visited positions are at least one
    loop step apart. *)
Lemma Visits_ordered rowData i a b :
  Visits rowData i a → Visits rowData i b → a < b → advance rowData a + 1 ≤ b.
Proof.
  intros Ha. revert b. induction Ha as [i Hi|i a Hi Ha IH]; intros b Hb Hab.
  - inversion Hb as [|? ? ? Hb']; subst; [lia|]. apply Visits_bounds in Hb'. lia.
  - inversion Hb as [|? ? ? Hb']; subst; [|by apply IH].
    apply Visits_bounds in Ha. pose proof (advance_ge rowData b). lia.
Qed.

Lemma parseRow_value (cm : gmap nat string) row j k :
  Visits (splitWhiteSpace row) 0 j →
  cm !! j = Some k → k ≠ "__proto__" →
  (∀ j', j < j' → j' < length (splitWhiteSpace row) → cm !! j' ≠ Some k) →
  parseRow cm row !! k =
    Some (arrayGet (splitWhiteSpace row) (advance (splitWhiteSpace row) j)).
Proof. intros. unfold parseRow. by apply rowLoop_visits. Qed.

Lemma parseRow_origin (cm : gmap nat string) row k v :
  parseRow cm row !! k = Some v →
  ∃ j, Visits (splitWhiteSpace row) 0 j ∧ cm !! j = Some k ∧ k ≠ "__proto__" ∧
       v = arrayGet (splitWhiteSpace row) (advance (splitWhiteSpace row) j).
Proof.
  intros Hv. unfold parseRow in Hv.
  assert (length (splitWhiteSpace row) - 0 ≤ length (splitWhiteSpace row)) as Hn by lia.
  destruct (rowLoop_origin _ _ _ _ _ _ _ Hn Hv) as [Hv0|?];
    [by rewrite lookup_empty in Hv0|done].
Qed.

(** *** Claims about the parser *)

(** C1, as amended.  Header [USER PID NAME] with the data line
    [root 123 S com.example.app] yields [name = com.example.app].  In
    general the loop examines the tokens from the left, and on every data
    line:
    - a token ["S"] that the loop examines and that is not the last token
      is skipped: the field bound to its position (when no later column of
      the row is bound to the same name) receives the token that follows,
      and that following token is not examined itself;
    - a token ["S"] that the loop examines as the last token is stored as
      an ordinary field value;
    - a field holds ["S"] only if an examined ["S"] is the last token or is
      followed by another ["S"];
    - every token left of the first ["S"] of the line, and that ["S"]
      itself, is examined. *)
Theorem skip_of_examined_S :
  parsePsTableOutput (joinNewline ["USER PID NAME"; "root 123 S com.example.app"])
                     ["user"; "pid"; "name"]
  = Normal [ {[ "user" := VString "root"; "pid" := VString "123";
                "name" := VString "com.example.app" ]} ] ∧
  ∀ output desiredFields,
    ∃ (cm : gmap nat string) recs,
      headerMapping output desiredFields = Normal cm ∧
      parsePsTableOutput output desiredFields = Normal recs ∧
      ∀ n row (rec : rowObject),
        dataRows output !! n = Some row → recs !! n = Some rec →
        let rowData := splitWhiteSpace row in
        (∀ j k, Visits rowData 0 j → rowData !! j = Some "S" →
                j < length rowData - 1 →
                cm !! j = Some k → k ≠ "__proto__" →
                (∀ j', j < j' → j' < length rowData → cm !! j' ≠ Some k) →
                (∃ t, rowData !! (j + 1) = Some t ∧ rec !! k = Some (VString t)) ∧
                ¬ Visits rowData 0 (j + 1)) ∧
        (∀ j k, Visits rowData 0 j → rowData !! j = Some "S" →
                j = length rowData - 1 →
                cm !! j = Some k → k ≠ "__proto__" →
                rec !! k = Some (VString "S")) ∧
        (∀ k, rec !! k = Some (VString "S") →
              ∃ j, Visits rowData 0 j ∧ cm !! j = Some k ∧ rowData !! j = Some "S" ∧
                   (j = length rowData - 1 ∨ rowData !! (j + 1) = Some "S")) ∧
        (∀ j, j < length rowData → (∀ j', j' < j → rowData !! j' ≠ Some "S") →
              Visits rowData 0 j).
Proof.
  split; [by vm_compute|].
  intros output desiredFields.
  destruct (parse_total output desiredFields) as (header & rest & cm & _ & Hcm & _ & Hparse).
  exists cm, (map (parseRow cm) (dataRows output)). split; [done|]. split; [done|].
  intros n row rec Hrow Hrec rowData.
  rewrite (record_of_row _ _ _ _ _ Hrow Hrec). clear Hrec. subst rowData.
  set (rowData := splitWhiteSpace row). repeat split.
  - destruct (lookup_lt_is_Some_2 rowData (j + 1)) as [t Ht]; [lia|].
    exists t. split; [done|].
    rewrite (parseRow_value cm row j k) by done. fold rowData.
    rewrite advance_skip by done. unfold arrayGet. by rewrite Ht.
  - intros Hnext.
    pose proof (Visits_ordered rowData 0 j (j + 1)) as Hord.
    rewrite advance_skip in Hord by done. specialize (Hord ltac:(done) Hnext). lia.
  - intros j k Hvis Hs -> Hk Hproto.
    rewrite (parseRow_value cm row (length rowData - 1) k); [|done..|].
    + fold rowData. rewrite advance_stay by lia. unfold arrayGet. by rewrite Hs.
    + fold rowData. intros; lia.
  - intros k Hk. apply parseRow_origin in Hk as (j & Hvis & Hj & _ & Hv).
    fold rowData in Hvis, Hv. exists j. split; [done|]. split; [done|].
    unfold advance in Hv. destruct (skipsAt rowData j) eqn:Hskip.
    + apply skipsAt_true in Hskip as [Hs ?]. split; [done|]. right.
      unfold arrayGet in Hv. destruct (rowData !! (j + 1)); by inversion Hv.
    + assert (rowData !! j = Some "S") as Hs.
      { unfold arrayGet in Hv. destruct (rowData !! j); by inversion Hv. }
      split; [done|]. left. apply Visits_bounds in Hvis.
      destruct (decide (j < length rowData - 1)); [|lia].
      by rewrite (proj2 (skipsAt_true rowData j)) in Hskip.
  - intros j Hj Hfree. apply (Visits_before_S _ _ j); [lia|lia|done|].
    intros j' _ ?. by apply Hfree.
Qed.

(** C1 as stated fails on the data line [S S x] under the header [A B C]:
    the second token is an ["S"] that is not the last token, yet it is not
    skipped.  It is stored as the value of field [a], and field [b], bound
    to its position, does not receive the following token [x]. *)
Lemma skip_of_every_S_fails :
  splitWhiteSpace "S S x" = ["S"; "S"; "x"] ∧
  ∃ rec : rowObject,
    parsePsTableOutput (joinNewline ["A B C"; "S S x"]) ["a"; "b"; "c"] = Normal [rec] ∧
    rec !! "a" = Some (VString "S") ∧
    rec !! "b" = None ∧
    rec !! "c" = Some (VString "x").
Proof. split; [done|]. eexists. by vm_compute. Qed.

(** C2.  The parser emits one record per data line (a line after the
    first) whose trimmed content is not empty, in the order of those lines:
    the [n]-th record is the one built from the [n]-th such line, and there
    are as many records as such lines. *)
Theorem one_record_per_nonblank_data_line output desiredFields :
  ∃ (cm : gmap nat string) recs,
    headerMapping output desiredFields = Normal cm ∧
    parsePsTableOutput output desiredFields = Normal recs ∧
    length recs =
      length (filter (λ row, trim row ≠ "") (drop 1 (splitNewline output))) ∧
    ∀ n, recs !! n =
         parseRow cm <$> filter (λ row, trim row ≠ "") (drop 1 (splitNewline output)) !! n.
Proof.
  destruct (parse_total output desiredFields) as (header & rest & cm & _ & Hcm & _ & Hparse).
  exists cm, (map (parseRow cm) (dataRows output)). split; [done|]. split; [done|].
  split; [by rewrite length_map|].
  intros n. change (map (parseRow cm) (dataRows output)) with (parseRow cm <$> dataRows output).
  by rewrite list_lookup_fmap.
Qed.

(** C3 as stated fails for a desired name that is not in lower case:
    the header token [USER] matches the desired field [USER] in every
    letter, yet no column is bound to it. *)
Lemma binding_is_not_case_insensitive :
  "USER" ∈ ["USER"] ∧
  "USER" ∈ splitWhiteSpace "USER" ∧
  sameIgnoringCase "USER" "USER" ∧
  ∃ cm : gmap nat string,
    headerMapping "USER" ["USER"] = Normal cm ∧ ¬ ∃ j, cm !! j = Some "USER".
Proof.
  split; [set_solver|]. split; [set_solver|]. split; [done|].
  exists ∅. split; [by vm_compute|]. intros [j Hj]. by rewrite lookup_empty in Hj.
Qed.

(** C3, as amended.  A desired field name is bound to a header column if
    and only if some whitespace-delimited token of the header line, put in
    lower case, is equal to it; for a desired name that is itself in lower
    case this is the case if and only if some header token matches it
    case-insensitively.  The keys of every output record are bound names,
    so a desired field that matches no header token case-insensitively is
    not a key of any output record. *)
Theorem binding_by_lowercased_token output desiredFields :
  ∃ header rest (cm : gmap nat string) recs,
    splitNewline output = header :: rest ∧
    headerMapping output desiredFields = Normal cm ∧
    parsePsTableOutput output desiredFields = Normal recs ∧
    ∀ d,
      ((∃ j, cm !! j = Some d) ↔
       d ∈ desiredFields ∧ ∃ tok, tok ∈ splitWhiteSpace header ∧ toLowerCase tok = d) ∧
      (d ∈ desiredFields → toLowerCase d = d →
       ((∃ j, cm !! j = Some d) ↔
        ∃ tok, tok ∈ splitWhiteSpace header ∧ sameIgnoringCase tok d)) ∧
      (∀ rec : rowObject, rec ∈ recs → is_Some (rec !! d) → ∃ j, cm !! j = Some d) ∧
      ((∀ tok, tok ∈ splitWhiteSpace header → ¬ sameIgnoringCase tok d) →
       ∀ rec : rowObject, rec ∈ recs → rec !! d = None).
Proof.
  destruct (parse_total output desiredFields)
    as (header & rest & cm & Hlines & Hcm & Hlk & Hparse).
  exists header, rest, cm, (map (parseRow cm) (dataRows output)).
  split; [done|]. split; [done|]. split; [done|]. intros d.
  assert ((∃ j, cm !! j = Some d) ↔
          d ∈ desiredFields ∧ ∃ tok, tok ∈ splitWhiteSpace header ∧ toLowerCase tok = d)
    as Hbound.
  { split.
    - intros [j Hj]. rewrite Hlk in Hj. apply columnAt_Some in Hj as (tok & Htok & ? & ?).
      split; [done|]. exists tok. split; [|done]. by eapply list_elem_of_lookup_2.
    - intros (Hd & tok & Htok & Hlow). apply list_elem_of_lookup in Htok as [j Hj].
      exists j. rewrite Hlk. apply columnAt_Some. eauto. }
  assert (∀ rec : rowObject, rec ∈ map (parseRow cm) (dataRows output) →
            is_Some (rec !! d) → ∃ j, cm !! j = Some d) as Hkeys.
  { intros rec Hrec Hsome. apply list_elem_of_In, in_map_iff in Hrec as (row & <- & _).
    apply parseRow_keys in Hsome as (j & _ & Hj). eauto. }
  split; [done|]. split; [|split; [done|]].
  - intros Hd Hlow. rewrite Hbound. unfold sameIgnoringCase. split.
    + intros (_ & tok & ? & <-). exists tok. by rewrite toLowerCase_idemp.
    + intros (tok & Htok & Hsame). split; [done|]. exists tok. split; [done|]. congruence.
  - intros Hnone rec Hrec. destruct (rec !! d) eqn:Hd; [|done].
    destruct (Hkeys rec Hrec) as [j Hj]; [by eexists|].
    destruct (proj1 Hbound (ex_intro _ j Hj)) as (_ & tok & Htok & Hlow).
    destruct (Hnone tok Htok). unfold sameIgnoringCase.
    by rewrite <- Hlow, toLowerCase_idemp.
Qed.

Lemma parseRow_no_S (cm : gmap nat string) row j k t :
  "S" ∉ splitWhiteSpace row →
  splitWhiteSpace row !! j = Some t →
  cm !! j = Some k → k ≠ "__proto__" →
  (∀ j', j < j' → j' < length (splitWhiteSpace row) → cm !! j' ≠ Some k) →
  parseRow cm row !! k = Some (VString t).
Proof.
  intros HnoS Ht Hk Hproto Hlater.
  assert (∀ j', splitWhiteSpace row !! j' ≠ Some "S") as Hfree.
  { intros j' Hj'. apply HnoS. by eapply list_elem_of_lookup_2. }
  pose proof (lookup_lt_Some _ _ _ Ht) as Hj.
  rewrite (parseRow_value cm row j k); [|apply (Visits_before_S _ _ j); [lia..|done|auto]|done..].
  rewrite advance_stay by (intros [? _]; by eapply Hfree).
  unfold arrayGet. by rewrite Ht.
Qed.

Lemma map_parseRow_unbound (cm : gmap nat string) rows :
  (∀ j, cm !! j = None) →
  map (parseRow cm) rows = replicate (length rows) (∅ : rowObject).
Proof.
  intros Hcm. induction rows as [|row rows IH]; simpl; [done|].
  by rewrite IH, parseRow_unbound.
Qed.

(** C4.  The parser returns normally on every text and every list of
    desired fields, with one record per non-blank data line; the empty
    text gives no record.  A record has no field whose columns all lie
    beyond the tokens of its row, and (on a row without an ["S"] token) it
    has every field bound to a column the row reaches, so a short row
    only omits the trailing fields.  When no header token is a desired
    field, every record is the empty object. *)
Theorem parsePsTableOutput_returns output desiredFields :
  parsePsTableOutput "" desiredFields = Normal [] ∧
  ∃ header rest (cm : gmap nat string) recs,
    splitNewline output = header :: rest ∧
    headerMapping output desiredFields = Normal cm ∧
    parsePsTableOutput output desiredFields = Normal recs ∧
    length recs = length (dataRows output) ∧
    (∀ n row (rec : rowObject),
       dataRows output !! n = Some row → recs !! n = Some rec →
       (∀ k, (∀ j, cm !! j = Some k → length (splitWhiteSpace row) ≤ j) →
             rec !! k = None) ∧
       (∀ j k, "S" ∉ splitWhiteSpace row →
               j < length (splitWhiteSpace row) →
               cm !! j = Some k → k ≠ "__proto__" →
               ∃ t, t ∈ splitWhiteSpace row ∧ rec !! k = Some (VString t))) ∧
    ((∀ tok, tok ∈ splitWhiteSpace header → toLowerCase tok ∉ desiredFields) →
     recs = replicate (length (dataRows output)) (∅ : rowObject)).
Proof.
  split.
  { destruct (parse_total "" desiredFields) as (? & ? & cm & _ & _ & _ & ->).
    reflexivity. }
  destruct (parse_total output desiredFields)
    as (header & rest & cm & Hlines & Hcm & Hlk & Hparse).
  exists header, rest, cm, (map (parseRow cm) (dataRows output)).
  split; [done|]. split; [done|]. split; [done|]. split; [by rewrite length_map|].
  split.
  - intros n row rec Hrow Hrec.
    rewrite (record_of_row _ _ _ _ _ Hrow Hrec). clear Hrec. split.
    + intros k Hbeyond. destruct (parseRow cm row !! k) eqn:Hk; [|done].
      destruct (parseRow_keys cm row k) as (j & Hj & Hjk); [by eexists|].
      apply Hbeyond in Hjk. lia.
    + intros j k HnoS Hj Hjk Hproto.
      destruct (last_bound_column cm k _ j Hj Hjk) as (j1 & Hj1 & Hk1 & Hlater).
      destruct (lookup_lt_is_Some_2 _ _ Hj1) as [t Ht].
      exists t. split; [by eapply list_elem_of_lookup_2|].
      by apply (parseRow_no_S cm row j1).
  - intros Hnone. apply map_parseRow_unbound. intros j. rewrite Hlk.
    destruct (columnAt (splitWhiteSpace header) desiredFields j) as [d|] eqn:Hd; [|done].
    apply columnAt_Some in Hd as (tok & Htok & <- & Hin).
    destruct (Hnone tok); [by eapply list_elem_of_lookup_2|done].
Qed.

Lemma lookup_shiftLeft (cm : gmap nat string) j : shiftLeft cm !! j = cm !! S j.
Proof.
  unfold shiftLeft. revert j.
  apply (map_fold_weak_ind
           (λ (r m : gmap nat string), ∀ j, r !! j = m !! S j)).
  - intros j. by rewrite !lookup_empty.
  - intros i x m r Hi IH j. destruct i as [|i'].
    + rewrite lookup_insert_ne by lia. apply IH.
    + destruct (decide (i' = j)) as [->|Hne].
      * by rewrite !lookup_insert_eq.
      * rewrite !lookup_insert_ne by lia. apply IH.
Qed.

Lemma arrayGet_cons t visual i : arrayGet (t :: visual) (S i) = arrayGet visual i.
Proof. reflexivity. Qed.

Lemma skipsAt_cons t visual i : skipsAt (t :: visual) (S i) = skipsAt visual i.
Proof.
  unfold skipsAt. rewrite arrayGet_cons. f_equal.
  apply bool_decide_ext. simpl. lia.
Qed.

Lemma advance_cons t visual i : advance (t :: visual) (S i) = S (advance visual i).
Proof. unfold advance. rewrite skipsAt_cons. destruct (skipsAt visual i); lia. Qed.

Lemma store_cons t visual (cm cm' : gmap nat string) e i (obj : rowObject) :
  cm' !! e = cm !! S e →
  store cm (t :: visual) (S e) (S i) obj = store cm' visual e i obj.
Proof. intros Hcm. unfold store. by rewrite Hcm, arrayGet_cons. Qed.

(** Behind one more leading token the loop does what it does without it
    against the mapping moved one column to the left. *)
Lemma rowLoop_cons_shift t visual (cm cm' : gmap nat string) n :
  (∀ j, cm' !! j = cm !! S j) →
  ∀ i (obj : rowObject),
    length visual - i ≤ n →
    rowLoop (t :: visual) cm (S i) obj = rowLoop visual cm' i obj.
Proof.
  intros Hcm. induction n as [|n IH]; intros i obj Hn;
    rewrite (rowLoop_step (t :: visual) cm (S i)), (rowLoop_step visual cm' i);
    change (length (t :: visual)) with (S (length visual));
    destruct (decide (S i < S (length visual))), (decide (i < length visual));
    try lia; try done.
  pose proof (advance_ge visual i).
  rewrite advance_cons.
  replace (S (advance visual i) + 1) with (S (advance visual i + 1)) by lia.
  rewrite (store_cons t visual cm cm') by apply Hcm.
  apply IH. lia.
Qed.

(** The object the loop starts from shows only at the keys the loop does
    not write. *)
Lemma rowLoop_initial rowData (cm : gmap nat string) k n : ∀ i (obj : rowObject),
  length rowData - i ≤ n →
  rowLoop rowData cm i obj !! k =
  match rowLoop rowData cm i ∅ !! k with
  | Some v => Some v
  | None => obj !! k
  end.
Proof.
  induction n as [|n IH]; intros i obj Hn;
    rewrite (rowLoop_step rowData cm i obj), (rowLoop_step rowData cm i ∅);
    destruct (decide (i < length rowData)) as [Hi|Hi]; try lia;
    try by rewrite lookup_empty.
  pose proof (advance_ge rowData i).
  rewrite (IH _ (store cm rowData i (advance rowData i) obj)) by lia.
  rewrite (IH _ (store cm rowData i (advance rowData i) ∅)) by lia.
  destruct (rowLoop rowData cm (advance rowData i + 1) ∅ !! k); [done|].
  rewrite !store_lookup. case_decide; [done|]. by rewrite lookup_empty.
Qed.

(** An indented row is read as the row without its indentation against
    the mapping moved one column to the left; the field of column 0 gets
    the empty token unless a later column of the row writes it. *)
Lemma parseRow_indented (cm : gmap nat string) row k :
  startsWith isWhiteSpace row = true →
  parseRow cm row !! k =
  match parseRow (shiftLeft cm) (trimStart row) !! k with
  | Some v => Some v
  | None => if decide (cm !! 0 = Some k ∧ k ≠ "__proto__")
            then Some (VString EmptyString) else None
  end.
Proof.
  intros Hindent. unfold parseRow.
  rewrite (splitWhiteSpace_indent row Hindent).
  set (visual := splitWhiteSpace (trimStart row)).
  rewrite (rowLoop_step (EmptyString :: visual) cm 0).
  change (length (EmptyString :: visual)) with (S (length visual)).
  destruct (decide (0 < S (length visual))); [|lia].
  rewrite (advance_stay (EmptyString :: visual) 0) by (by intros [[= ?] _]).
  change (0 + 1) with 1.
  rewrite (rowLoop_cons_shift EmptyString visual cm (shiftLeft cm) (length visual))
    by (apply lookup_shiftLeft || lia).
  rewrite (rowLoop_initial visual (shiftLeft cm) k (length visual)) by lia.
  destruct (rowLoop visual (shiftLeft cm) 0 ∅ !! k); [done|].
  rewrite store_lookup. case_decide; [done|]. by rewrite lookup_empty.
Qed.

(** C10 as stated fails on a row with an ["S"] token: under the header
    [A B C D] the indented row [ S x y] has the real token [x] at visual
    position 1, but [x] becomes the value of [b], the field of column 1,
    and [c], the field one column to the right, gets nothing. *)
Lemma indented_row_with_S_not_shifted :
  splitWhiteSpace " S x y" = [""; "S"; "x"; "y"] ∧
  splitWhiteSpace (trimStart " S x y") !! 1 = Some "x" ∧
  parsePsTableOutput (joinNewline ["A B C D"; " S x y"]) ["a"; "b"; "c"; "d"]
  = Normal [ {[ "a" := VString ""; "b" := VString "x"; "d" := VString "y" ]} ].
Proof. split; [done|]. split; [done|]. by vm_compute. Qed.

(** C10, as amended.  A data line that begins with whitespace splits
    into an empty token followed by the tokens of the line without its
    indentation, so each of those tokens sits one position to the right.
    The row is therefore read exactly as the line without its indentation
    is read against the column mapping moved one column to the left, the
    field of column 0 receiving the empty token where that reading leaves
    it unset; in particular, on a row without an ["S"] token, the token at
    visual position [j] becomes the value of the field bound to header
    column [j + 1].  A header line that begins with whitespace is split
    the same way, and binds the token at visual position [j] to column
    [j + 1]. *)
Theorem leading_whitespace_shifts_columns output desiredFields :
  ∃ header rest (cm : gmap nat string) recs,
    splitNewline output = header :: rest ∧
    headerMapping output desiredFields = Normal cm ∧
    parsePsTableOutput output desiredFields = Normal recs ∧
    (∀ j, shiftLeft cm !! j = cm !! (j + 1)) ∧
    (∀ n row (rec : rowObject),
       dataRows output !! n = Some row → recs !! n = Some rec →
       startsWith isWhiteSpace row = true →
       let visual := splitWhiteSpace (trimStart row) in
       splitWhiteSpace row = EmptyString :: visual ∧
       (∀ j, arrayGet (splitWhiteSpace row) (j + 1) = arrayGet visual j) ∧
       (∀ k, rec !! k =
             match parseRow (shiftLeft cm) (trimStart row) !! k with
             | Some v => Some v
             | None => if decide (cm !! 0 = Some k ∧ k ≠ "__proto__")
                       then Some (VString EmptyString) else None
             end) ∧
       (∀ j t k, "S" ∉ visual → visual !! j = Some t →
                 cm !! (j + 1) = Some k → k ≠ "__proto__" →
                 (∀ j', j + 1 < j' → j' ≤ length visual → cm !! j' ≠ Some k) →
                 rec !! k = Some (VString t))) ∧
    (startsWith isWhiteSpace header = true →
     let visual := splitWhiteSpace (trimStart header) in
     splitWhiteSpace header = EmptyString :: visual ∧
     ∀ j, cm !! (j + 1) = columnAt visual desiredFields j).
Proof.
  destruct (parse_total output desiredFields)
    as (header & rest & cm & Hlines & Hcm & Hlk & Hparse).
  exists header, rest, cm, (map (parseRow cm) (dataRows output)).
  split; [done|]. split; [done|]. split; [done|]. split.
  { intros j. rewrite lookup_shiftLeft. by replace (j + 1) with (S j) by lia. }
  split.
  - intros n row rec Hrow Hrec Hindent visual.
    rewrite (record_of_row _ _ _ _ _ Hrow Hrec). clear Hrec.
    pose proof (splitWhiteSpace_indent row Hindent) as Hsplit. fold visual in Hsplit.
    split; [done|]. split; [|split].
    + intros j. unfold arrayGet. rewrite Hsplit.
      by replace (j + 1) with (S j) by lia.
    + intros k. by apply parseRow_indented.
    + intros j t k HnoS Ht Hk Hproto Hlater.
      apply (parseRow_no_S cm row (j + 1)); rewrite ?Hsplit; try done.
      * intros Hin. apply elem_of_cons in Hin as [?|?]; [discriminate|done].
      * by replace (j + 1) with (S j) by lia.
      * intros j' ? Hj'. simpl in Hj'. apply Hlater; lia.
  - intros Hindent visual.
    pose proof (splitWhiteSpace_indent header Hindent) as Hsplit. fold visual in Hsplit.
    split; [done|]. intros j. rewrite Hlk, Hsplit. unfold columnAt.
    by replace (j + 1) with (S j) by lia.
Qed.

(** ** Observables *)

Lemma mapEmitted_pure {A B : Type} (f : A → B) (l : list A) (e : ending) :
  mapEmitted (λ a, Normal (f a)) l e = Observable (f <$> l) e.
Proof. induction l as [|a l IH]; simpl; [done|]. by rewrite IH. Qed.

Lemma toPromise_map_pure {A B : Type} (f : A → B) (o : observable A) :
  toPromise (obsMap (λ a, Normal (f a)) o) = fmap (M := option) f <$> toPromise o.
Proof.
  unfold obsMap, toPromise. rewrite mapEmitted_pure. simpl.
  destruct (end_ o); [|done]. cbn. by rewrite fmap_last.
Qed.

Lemma mapEmitted_total {A B : Type} (f : A → completion B) (g : A → B)
    (l : list A) (e : ending) :
  (∀ a, f a = Normal (g a)) → mapEmitted f l e = Observable (g <$> l) e.
Proof.
  intros Hf. induction l as [|a l IH]; simpl; [done|]. by rewrite Hf, IH.
Qed.

Lemma filter_has_empty (rows : list rowObject) :
  filter (λ row, setHas ∅ (pidOf row) = true) rows = [].
Proof.
  induction rows as [|row rows IH]; [done|].
  rewrite filter_cons_False; [done|].
  unfold setHas. destruct (pidOf row) as [| |s]; try done;
    intros Hin%bool_decide_eq_true; set_solver.
Qed.

(** ** Claims about the adb queries *)

Section AdbProperties.

Variable runShortAdbCommand : string → list string → observable string.
Variable getCommonDeviceInfo : string → completion (gmap string value).
Variable adbPath : string.
Variable observeProcessRaw : string → list string → observable processMessage.

(** C5.  [isPackageInstalled(device, pkg)] is fulfilled with [true] if
    and only if [getInstalledPackages(device)] is fulfilled with a list
    that contains [pkg]; it is fulfilled with [false] if and only if
    that list does not contain [pkg], and it is rejected exactly when
    the listing is. *)
Theorem isPackageInstalled_iff_listed device pkg :
  (isPackageInstalled runShortAdbCommand device pkg = Normal true ↔
   ∃ packages, getInstalledPackages runShortAdbCommand device = Normal packages ∧
               pkg ∈ packages) ∧
  (isPackageInstalled runShortAdbCommand device pkg = Normal false ↔
   ∃ packages, getInstalledPackages runShortAdbCommand device = Normal packages ∧
               pkg ∉ packages) ∧
  (∀ e, isPackageInstalled runShortAdbCommand device pkg = Throw e ↔
        getInstalledPackages runShortAdbCommand device = Throw e).
Proof using Type.
  unfold isPackageInstalled.
  destruct (getInstalledPackages runShortAdbCommand device) as [packages|e0]; cbn.
  - unfold includes. split; [|split].
    + split.
      * intros Heq. exists packages. split; [done|].
        apply (bool_decide_eq_true_1 (pkg ∈ packages)). congruence.
      * intros (? & [= <-] & Hin). by rewrite bool_decide_eq_true_2.
    + split.
      * intros Heq. exists packages. split; [done|].
        apply (bool_decide_eq_false_1 (pkg ∈ packages)). congruence.
      * intros (? & [= <-] & Hin). by rewrite bool_decide_eq_false_2.
    + intros e. by split.
  - split; [|split]; [split; [done|by intros (? & ? & _)]..|].
    intros e. split; congruence.
Qed.

(** C8.  [getDeviceModel] maps the looked-up property value, which is
    the trimmed [getprop] output for [ro.product.model]: the value [sdk]
    is reported as [emulator] and every other value is returned as it
    is. *)
Theorem getDeviceModel_emulator device :
  getDeviceModel runShortAdbCommand device =
    fmap (M := option) (λ s, if decide (s = "sdk") then "emulator" else s)
      <$> toPromise (getAndroidProp runShortAdbCommand device "ro.product.model") ∧
  ∀ stdout,
    runShortAdbCommand device ["shell"; "getprop"; "ro.product.model"]
      = Observable [stdout] Completes →
    toPromise (getAndroidProp runShortAdbCommand device "ro.product.model")
      = Normal (Some (trim stdout)) ∧
    (trim stdout = "sdk" →
     getDeviceModel runShortAdbCommand device = Normal (Some "emulator")) ∧
    (trim stdout ≠ "sdk" →
     getDeviceModel runShortAdbCommand device = Normal (Some (trim stdout))).
Proof using Type.
  unfold getDeviceModel. rewrite toPromise_map_pure. split; [done|].
  intros stdout Hrun. unfold getAndroidProp. rewrite toPromise_map_pure, Hrun. cbn.
  split; [done|]. split; intros Hs.
  - by rewrite Hs.
  - by destruct (decide (trim stdout = "sdk")).
Qed.

(** C9.  [getInstalledPackages] returns one string per
    whitespace-separated token of the trimmed output, which is that token
    without its first 8 characters, whatever those characters are (and the
    empty string for a token shorter than 8 characters); for an output
    that is empty or all whitespace the result is the one-element list
    [[""]], and [isPackageInstalled(device, "")] is then [true]. *)
Theorem getInstalledPackages_drops_8 device stdout :
  toPromise (runShortAdbCommand device ["shell"; "pm"; "list"; "packages"])
    = Normal (Some stdout) →
  ∃ packages,
    getInstalledPackages runShortAdbCommand device = Normal packages ∧
    length packages = length (splitWhiteSpace (trim stdout)) ∧
    (∀ i tok,
       splitWhiteSpace (trim stdout) !! i = Some tok →
       ∃ name,
         packages !! i = Some name ∧
         ((∃ pre, String.length pre = 8 ∧ tok = pre +:+ name) ∨
          (String.length tok < 8 ∧ name = EmptyString))) ∧
    (trim stdout = EmptyString →
     packages = [EmptyString] ∧
     isPackageInstalled runShortAdbCommand device EmptyString = Normal true).
Proof using Type.
  intros Hrun.
  set (packages := map (substring 8) (splitWhiteSpace (trim stdout))).
  assert (getInstalledPackages runShortAdbCommand device = Normal packages) as Hlist.
  { unfold getInstalledPackages. by rewrite Hrun. }
  exists packages. split; [done|]. split; [by apply length_map|]. split.
  - intros i tok Htok. exists (substring 8 tok). split.
    + subst packages.
      change (map (substring 8) (splitWhiteSpace (trim stdout)))
        with (substring 8 <$> splitWhiteSpace (trim stdout)).
      by rewrite list_lookup_fmap, Htok.
    + apply substring_drops.
  - intros Hblank. subst packages. rewrite Hblank in Hlist |- *.
    split; [done|]. unfold isPackageInstalled. by rewrite Hlist.
Qed.

(** C6.  When the base table is available, [getDeviceInfo] is fulfilled
    with that table in which [android_version], [manufacturer] and
    [brand] are set: to the value looked up, and to [null] when the
    lookup is rejected.  The call is rejected only when the base table
    is. *)
Theorem getDeviceInfo_sets_optional_keys device :
  (∀ e, getDeviceInfo runShortAdbCommand getCommonDeviceInfo device = Throw e ↔
        getCommonDeviceInfo device = Throw e) ∧
  ∀ infoTable : gmap string value,
    getCommonDeviceInfo device = Normal infoTable →
    ∃ t : gmap string value,
      getDeviceInfo runShortAdbCommand getCommonDeviceInfo device = Normal t ∧
      is_Some (t !! "android_version") ∧
      is_Some (t !! "manufacturer") ∧
      is_Some (t !! "brand") ∧
      (∀ e, getOSVersion runShortAdbCommand device = Throw e →
            t !! "android_version" = Some VNull) ∧
      (∀ e, getManufacturer runShortAdbCommand device = Throw e →
            t !! "manufacturer" = Some VNull) ∧
      (∀ e, getBrand runShortAdbCommand device = Throw e →
            t !! "brand" = Some VNull) ∧
      (∀ v, getOSVersion runShortAdbCommand device = Normal v →
            t !! "android_version" = Some (ofOptional v)) ∧
      (∀ v, getManufacturer runShortAdbCommand device = Normal v →
            t !! "manufacturer" = Some (ofOptional v)) ∧
      (∀ v, getBrand runShortAdbCommand device = Normal v →
            t !! "brand" = Some (ofOptional v)) ∧
      (∀ k, k ∉ ["android_version"; "manufacturer"; "brand"] →
            t !! k = infoTable !! k).
Proof using Type.
  clear adbPath observeProcessRaw. unfold getDeviceInfo.
  destruct (getCommonDeviceInfo device) as [infoTable|e0]; cbn; [|by split].
  destruct (getOSVersion runShortAdbCommand device) as [v1|e1];
    destruct (getManufacturer runShortAdbCommand device) as [v2|e2];
    destruct (getBrand runShortAdbCommand device) as [v3|e3]; cbn;
    (split; [done|]); intros ? [= <-]; eexists; (split; [reflexivity|]);
    repeat split; try done; try (intros ? [= <-]); try (intros ? [= ->]);
    try (by simplify_map_eq);
    intros k Hk; rewrite !lookup_insert_ne; set_solver.
Qed.

(** C7, as amended.  In [getJavaProcesses], with the process table at
    hand, a failure of the jdwp scan never makes the operation reject: the
    failure is replaced by an event of kind [error], and such an event
    gives an empty set of pids and so an empty list.  A scan that fails
    before it emits anything makes the operation resolve with the empty
    list.  A scan that has emitted an event is cut after that event: the
    operation resolves with the table filtered by that first event,
    whether or not the scan fails afterwards.  A scan that completes
    without any event gives [undefined]. *)
Theorem getJavaProcesses_scan_failure device allProcesses :
  listProcesses runShortAdbCommand device = Normal (Some allProcesses) →
  (∀ evs e,
     obsCatch (λ error, obsOf (ErrorMessage error)) (Observable evs (Fails e))
     = Observable (evs ++ [ErrorMessage e])%list Completes) ∧
  (∀ e, jdwpFilter (Some allProcesses) (ErrorMessage e) = Normal []) ∧
  (∀ e, observeProcessRaw adbPath (jdwpArgs device) = Observable [] (Fails e) →
        jdwpEvents adbPath observeProcessRaw device
          = Observable [ErrorMessage e] Completes ∧
        getJavaProcesses runShortAdbCommand adbPath observeProcessRaw device
          = Normal (Some [])) ∧
  (∀ ev evs scanEnd,
     observeProcessRaw adbPath (jdwpArgs device) = Observable (ev :: evs) scanEnd →
     jdwpEvents adbPath observeProcessRaw device = Observable [ev] Completes ∧
     ∃ rows,
       jdwpFilter (Some allProcesses) ev = Normal rows ∧
       getJavaProcesses runShortAdbCommand adbPath observeProcessRaw device
         = Normal (Some rows)) ∧
  (observeProcessRaw adbPath (jdwpArgs device) = Observable [] Completes →
   getJavaProcesses runShortAdbCommand adbPath observeProcessRaw device
     = Normal None) ∧
  (∃ result,
     getJavaProcesses runShortAdbCommand adbPath observeProcessRaw device
     = Normal result).
Proof using Type.
  intros Hps.
  assert (∀ e, jdwpFilter (Some allProcesses) (ErrorMessage e) = Normal []) as Hempty.
  { intros e. unfold jdwpFilter. by rewrite filter_has_empty. }
  assert (∀ ev, ∃ rows, jdwpFilter (Some allProcesses) ev = Normal rows) as Hfilter.
  { intros ev. unfold jdwpFilter. eauto. }
  assert (∀ ev,
            jdwpEvents adbPath observeProcessRaw device = Observable [ev] Completes →
            ∀ rows, jdwpFilter (Some allProcesses) ev = Normal rows →
            getJavaProcesses runShortAdbCommand adbPath observeProcessRaw device
              = Normal (Some rows)) as Hfirst.
  { intros ev Hev rows Hrows. unfold getJavaProcesses. rewrite Hps. cbn.
    unfold obsMap. rewrite Hev. unfold emitted, end_, mapEmitted.
    by rewrite Hrows. }
  split; [done|]. split; [done|]. split; [|split; [|split]].
  - intros e Hraw.
    assert (jdwpEvents adbPath observeProcessRaw device
            = Observable [ErrorMessage e] Completes) as Hev.
    { unfold jdwpEvents. by rewrite Hraw. }
    split; [done|]. by apply (Hfirst (ErrorMessage e)).
  - intros ev evs scanEnd Hraw.
    assert (jdwpEvents adbPath observeProcessRaw device = Observable [ev] Completes)
      as Hev.
    { unfold jdwpEvents. rewrite Hraw. by destruct scanEnd. }
    split; [done|]. destruct (Hfilter ev) as [rows Hrows].
    exists rows. split; [done|]. by apply (Hfirst ev).
  - intros Hraw. unfold getJavaProcesses. rewrite Hps. cbn.
    unfold obsMap, jdwpEvents. by rewrite Hraw.
  - unfold getJavaProcesses. rewrite Hps. cbn.
    unfold obsMap.
    rewrite (mapEmitted_total _
               (λ output, match jdwpFilter (Some allProcesses) output with
                          | Normal rows => rows
                          | Throw _ => []
                          end)) by done.
    unfold jdwpEvents, obsTake, obsCatch, toPromise.
    destruct (end_ (observeProcessRaw adbPath (jdwpArgs device))) eqn:Hend;
      cbn; case_decide; cbn; rewrite ?Hend; eauto.
Qed.

End AdbProperties.


(** ** The claims at sample collaborators *)

Lemma getInstalledPackages_drops_8_mixed :
  (toPromise (mixedListing "" ["shell"; "pm"; "list"; "packages"])
     = Normal (Some "package:com.example.app com.example.app pkg") ∧
   getInstalledPackages mixedListing ""
     = Normal ["com.example.app"; "ple.app"; ""] ∧
   ∃ packages,
     getInstalledPackages mixedListing "" = Normal packages ∧
     length packages = 3 ∧
     ∃ name,
       packages !! 1 = Some name ∧
       ((∃ pre, String.length pre = 8 ∧ "com.example.app" = pre +:+ name) ∨
        (String.length "com.example.app" < 8 ∧ name = EmptyString))) ∧
  (toPromise (blankDevice "emulator-5554" ["shell"; "pm"; "list"; "packages"])
     = Normal (Some "  ") ∧
   ∃ packages,
     getInstalledPackages blankDevice "emulator-5554" = Normal packages ∧
     packages = [""] ∧
     isPackageInstalled blankDevice "emulator-5554" "" = Normal true).
Proof.
  split.
  - split; [reflexivity|]. split; [reflexivity|].
    destruct (getInstalledPackages_drops_8 mixedListing ""
                "package:com.example.app com.example.app pkg" eq_refl)
      as (packages & Hget & Hlen & Htok & _).
    exists packages. split; [exact Hget|]. split; [exact Hlen|].
    exact (Htok 1 "com.example.app" eq_refl).
  - split; [reflexivity|].
    destruct (getInstalledPackages_drops_8 blankDevice "emulator-5554" "  " eq_refl)
      as (packages & Hget & _ & _ & Hblank).
    exists packages. split; [exact Hget|]. exact (Hblank eq_refl).
Defined.

Lemma getJavaProcesses_scan_failure_noAdb :
  (∃ allProcesses, listProcesses initDevice "" = Normal (Some allProcesses)) ∧
  getJavaProcesses initDevice "adb" noAdb "" = Normal (Some []).
Proof.
  split; [eexists; vm_compute; reflexivity|].
  refine (proj2 (proj1 (proj2 (proj2
    (getJavaProcesses_scan_failure initDevice "adb" noAdb "" _ _)))
    (ProcessError "spawn ENOENT") _)).
  - vm_compute. reflexivity.
  - reflexivity.
Defined.

(** C7 as stated fails for a scan that fails after it has printed pids:
    the scan of [lateFailure] ends in a failure, and the operation
    resolves with the two processes whose pids it printed, not with the
    empty list. *)
Lemma scan_failure_after_output_not_empty :
  lateFailure "adb" (jdwpArgs "")
    = Observable [Stdout " 1 77"] (Fails (ProcessError "adb died")) ∧
  ∃ allProcesses rows,
    listProcesses initDevice "" = Normal (Some allProcesses) ∧
    getJavaProcesses initDevice "adb" lateFailure "" = Normal (Some rows) ∧
    rows = allProcesses ∧
    length rows = 2 ∧
    getJavaProcesses initDevice "adb" lateFailure "" ≠ Normal (Some []).
Proof.
  split; [reflexivity|]. eexists. eexists.
  split; [vm_compute; reflexivity|].
  split; [vm_compute; reflexivity|].
  split; [reflexivity|]. split; [reflexivity|].
  vm_compute. discriminate.
Qed.

Lemma getDeviceInfo_sets_optional_keys_dead :
  ∃ t : gmap string value,
    getDeviceInfo deadDevice nameOnly "emulator-5554" = Normal t ∧
    t !! "android_version" = Some VNull ∧
    t !! "manufacturer" = Some VNull ∧
    t !! "brand" = Some VNull.
Proof.
  destruct (proj2 (getDeviceInfo_sets_optional_keys deadDevice nameOnly "emulator-5554")
              _ eq_refl)
    as (t & Ht & _ & _ & _ & Hos & Hman & Hbrand & _).
  exists t. split; [exact Ht|]. split; [|split].
  - apply (Hos (ProcessError "device offline")). reflexivity.
  - apply (Hman (ProcessError "device offline")). reflexivity.
  - apply (Hbrand (ProcessError "device offline")). reflexivity.
Defined.

Lemma getDeviceModel_emulator_sdk :
  getDeviceModel (λ _ _, Observable [" sdk "] Completes) "" = Normal (Some "emulator").
Proof.
  apply (proj2 (getDeviceModel_emulator (λ _ _, Observable [" sdk "] Completes) "")
           " sdk " eq_refl).
  reflexivity.
Defined.
